(** * TimelineEditor launcher: [src/TimelineEditor/qt/main.cpp]

    The only source file of the editor's Qt front end is its entry point.
    [main] is straight-line glue over the Qt framework: it issues a fixed
    sequence of framework calls, looks at one answer (the engine's root
    objects) and either returns [-1] or hands control to the event loop.

    The embedding keeps that shape.  A program is a tree of framework
    calls ([prog]); [main] is written in it statement by statement; the
    framework is an arbitrary environment that answers each call, or never
    returns from it.  An execution is the run of [main] against one such
    environment, and yields the chronological trace of the calls that
    returned together with the way the run ended.

    The trace holds the calls that the statements of [main] make, up to
    the [return] statement that ends the run; [Returned v] stands for the
    execution of [return] with value [v].  Leaving the scope of [main]
    then destroys the two automatic objects ([engine], then [app]), on
    either [return] alike: that is part of returning, comes after
    everything recorded here and cannot change [v], and it is not an event
    of the model. *)

From Stdlib Require Import ZArith List Ascii String Bool Lia.
Import ListNotations.

Open Scope Z_scope.

(** ** Values that cross the framework boundary *)

(** C++ [int]: the type of [argc], of the value of [app.exec()] and of the
    value [main] returns.  [main] does no arithmetic on it. *)
Definition int : Type := Z.

(** [char *argv[]]: the argument strings, in order. *)
Definition argv_t : Type := list string.

(** [Qt::ApplicationAttribute], restricted to the member the launcher names. *)
Inductive ApplicationAttribute : Type :=
| AA_EnableHighDpiScaling.

(** [QUrl(QStringLiteral(s))]. *)
Record QUrl : Type := mkQUrl { url_text : string }.

(** A root object is a [QObject *]; only its identity matters here. *)
Definition QObject : Type := N.

(** [QList<QObject*>::isEmpty()]. *)
Definition isEmpty {A : Type} (l : list A) : bool :=
  match l with
  | [] => true
  | _ :: _ => false
  end.

(** ** Framework calls *)

(** One constructor per call expression in [main], in the order of the
    source.  [QGuiApplication_new] and [QQmlApplicationEngine_new] are the
    constructors that build the locals [app] and [engine]; the first takes
    [argc] by reference and [argv] by pointer, and [main] reads neither
    afterwards.  [load], [rootObjects] and [exec] are the member calls on
    these two objects. *)
Inductive call : Type :=
| QCoreApplication_setAttribute (a : ApplicationAttribute)
| QLoggingCategory_setFilterRules (rules : string)
| QGuiApplication_new (argc : int) (argv : argv_t)
| QtWebEngine_initialize
| QQmlApplicationEngine_new
| QQmlApplicationEngine_load (url : QUrl)
| QQmlApplicationEngine_rootObjects
| QGuiApplication_exec.

(** What each call hands back to [main]. *)
Definition result (c : call) : Type :=
  match c with
  | QQmlApplicationEngine_rootObjects => list QObject
  | QGuiApplication_exec => int
  | _ => unit
  end.

(** ** Programs over the framework *)

Inductive prog (R : Type) : Type :=
| Ret (r : R)
| Call (c : call) (k : result c -> prog R).

Arguments Ret {R} r.
Arguments Call {R} c k.

Fixpoint bind {A B : Type} (p : prog A) (f : A -> prog B) : prog B :=
  match p with
  | Ret a => f a
  | Call c k => Call c (fun x => bind (k x) f)
  end.

(** Perform one call and return its answer. *)
Definition invoke (c : call) : prog (result c) := Call c (fun x => Ret x).

Declare Scope prog_scope.
Delimit Scope prog_scope with prog.
Notation "x <- p ;; q" := (bind p (fun x => q))
  (at level 61, p at next level, right associativity) : prog_scope.
Notation "p ;; q" := (bind p (fun _ => q))
  (at level 61, right associativity) : prog_scope.

(** ** The entry point *)

(** [int main(int argc, char *argv[])], one line per statement:
<<
    QCoreApplication::setAttribute(Qt::AA_EnableHighDpiScaling);
    QLoggingCategory::setFilterRules("qt.webengine*=true");
    QGuiApplication app(argc, argv);
    QtWebEngine::initialize();
    QQmlApplicationEngine engine;
    engine.load(QUrl(QStringLiteral("qrc:/main.qml")));
    if (engine.rootObjects().isEmpty())
        return -1;
    return app.exec();
>>
    The last statement returns the answer of the call as it is. *)
Definition main (argc : int) (argv : argv_t) : prog int :=
  (invoke (QCoreApplication_setAttribute AA_EnableHighDpiScaling) ;;
   invoke (QLoggingCategory_setFilterRules "qt.webengine*=true"%string) ;;
   invoke (QGuiApplication_new argc argv) ;;
   invoke QtWebEngine_initialize ;;
   invoke QQmlApplicationEngine_new ;;
   invoke (QQmlApplicationEngine_load (mkQUrl "qrc:/main.qml"%string)) ;;
   roots <- invoke QQmlApplicationEngine_rootObjects ;;
   if isEmpty roots then Ret (-1)
   else invoke QGuiApplication_exec)%prog.

(** ** Executions *)

(** A call that returned, with its answer. *)
Inductive event : Type :=
| Ev (c : call) (r : result c).

Definition ev_call (e : event) : call :=
  match e with Ev c _ => c end.

Definition trace : Type := list event.

(** How a run ends: [main] returns a value, or a framework call never
    hands control back (it blocks for ever, or ends the process). *)
Inductive outcome (R : Type) : Type :=
| Returned (r : R)
| NoReturn (c : call).

Arguments Returned {R} r.
Arguments NoReturn {R} c.

(** The framework as [main] sees it: given what has happened so far, a call
    is answered or is not.  Nothing else is assumed of it. *)
Definition framework : Type := trace -> forall c : call, option (result c).

Fixpoint run {R : Type} (fw : framework) (p : prog R) (hist : trace)
  : trace * outcome R :=
  match p with
  | Ret r => (hist, Returned r)
  | Call c k =>
      match fw hist c with
      | Some x => run fw (k x) (hist ++ [Ev c x])
      | None => (hist, NoReturn c)
      end
  end.

(** The calls an execution issued, in order: those that returned, then the
    one that did not, if any. *)
Definition calls_of {R : Type} (t : trace) (o : outcome R) : list call :=
  map ev_call t ++ match o with
                   | Returned _ => []
                   | NoReturn c => [c]
                   end.

(** ** Reading an execution *)

(** The root objects an event reports, if it is the answer to
    [engine.rootObjects()]. *)
Definition roots_of (e : event) : option (list QObject) :=
  match e with
  | Ev c r =>
      match c return result c -> option (list QObject) with
      | QQmlApplicationEngine_rootObjects => fun l => Some l
      | _ => fun _ => None
      end r
  end.

(** The value an event reports, if it is the return of [app.exec()]. *)
Definition status_of (e : event) : option int :=
  match e with
  | Ev c r =>
      match c return result c -> option int with
      | QGuiApplication_exec => fun v => Some v
      | _ => fun _ => None
      end r
  end.

(** First answer of the given sort in a trace. *)
Fixpoint first_some {A : Type} (f : event -> option A) (t : trace) : option A :=
  match t with
  | [] => None
  | e :: t' =>
      match f e with
      | Some a => Some a
      | None => first_some f t'
      end
  end.

(** What the load produced, as [main] observed it. *)
Definition observed_roots (t : trace) : option (list QObject) :=
  first_some roots_of t.

(** What the event loop returned, if it was run and came back. *)
Definition loop_status (t : trace) : option int :=
  first_some status_of t.

(** The steps of the launcher's contract, one per call. *)
Inductive effect : Type :=
| AttributeSetting
| LoggingFilterInstallation
| ApplicationConstruction
| WebEngineInitialization
| EngineConstruction
| UiLoadRequest
| RootObjectCheck
| EventLoop.

Definition effect_of (c : call) : effect :=
  match c with
  | QCoreApplication_setAttribute _ => AttributeSetting
  | QLoggingCategory_setFilterRules _ => LoggingFilterInstallation
  | QGuiApplication_new _ _ => ApplicationConstruction
  | QtWebEngine_initialize => WebEngineInitialization
  | QQmlApplicationEngine_new => EngineConstruction
  | QQmlApplicationEngine_load _ => UiLoadRequest
  | QQmlApplicationEngine_rootObjects => RootObjectCheck
  | QGuiApplication_exec => EventLoop
  end.

Definition effect_eqb (a b : effect) : bool :=
  match a, b with
  | AttributeSetting, AttributeSetting
  | LoggingFilterInstallation, LoggingFilterInstallation
  | ApplicationConstruction, ApplicationConstruction
  | WebEngineInitialization, WebEngineInitialization
  | EngineConstruction, EngineConstruction
  | UiLoadRequest, UiLoadRequest
  | RootObjectCheck, RootObjectCheck
  | EventLoop, EventLoop => true
  | _, _ => false
  end.

(** [performs k c]: the call [c] carries out step [k]. *)
Definition performs (k : effect) (c : call) : bool := effect_eqb (effect_of c) k.

(** The call sets the high-DPI scaling attribute. *)
Definition sets_high_dpi (c : call) : bool :=
  match c with
  | QCoreApplication_setAttribute AA_EnableHighDpiScaling => true
  | _ => false
  end.

(** How many calls of a list satisfy [P]. *)
Definition occurrences (P : call -> bool) (l : list call) : nat :=
  List.length (filter P l).

(** [precedes P Q l]: whenever a call satisfying [Q] is issued, a call
    satisfying [P] has been issued at a strictly earlier position. *)
Definition precedes (P Q : call -> bool) (l : list call) : Prop :=
  forall l1 c l2, l = l1 ++ c :: l2 -> Q c = true -> existsb P l1 = true.

(** Executable check of [precedes]; [seen] records whether a [P]-call has
    already gone by. *)
Fixpoint precedesb (P Q : call -> bool) (seen : bool) (l : list call) : bool :=
  match l with
  | [] => true
  | c :: l' => (negb (Q c) || seen) && precedesb P Q (seen || P c) l'
  end.

(** [l] is an initial segment of [full]. *)
Definition initial_segment {A : Type} (l full : list A) : Prop :=
  exists rest, full = l ++ rest.

(** The calls the source makes up to and including the root-object check,
    in program order. *)
Definition startup_calls (argc : int) (argv : argv_t) : list call :=
  [ QCoreApplication_setAttribute AA_EnableHighDpiScaling;
    QLoggingCategory_setFilterRules "qt.webengine*=true"%string;
    QGuiApplication_new argc argv;
    QtWebEngine_initialize;
    QQmlApplicationEngine_new;
    QQmlApplicationEngine_load (mkQUrl "qrc:/main.qml"%string);
    QQmlApplicationEngine_rootObjects ].

(** The initialization steps that come before the root-object check. *)
Definition initialization_steps : list effect :=
  [ AttributeSetting; LoggingFilterInstallation; ApplicationConstruction;
    WebEngineInitialization; EngineConstruction; UiLoadRequest ].

(** The calls of an execution that were issued before the root-object
    check. *)
Fixpoint before_check (l : list call) : list call :=
  match l with
  | [] => []
  | c :: l' => if performs RootObjectCheck c then [] else c :: before_check l'
  end.

(** Which way [main] went after the check. *)
Inductive branch : Type :=
| EarlyExit
| RunLoop.

Definition branch_taken (l : list call) : branch :=
  if existsb (performs EventLoop) l then RunLoop else EarlyExit.

(** One execution of the launcher: [main] run from an empty history. *)
Definition execute (fw : framework) (argc : int) (argv : argv_t)
  : trace * outcome int :=
  run fw (main argc argv) [].

(** The calls an execution issued. *)
Definition issued (e : trace * outcome int) : list call :=
  calls_of (fst e) (snd e).

(** ** Reading the two string constants *)

(** The text of [s] before its first occurrence of [sep], and the text
    after it. *)
Fixpoint split_at (sep : Ascii.ascii) (s : string) : option (string * string) :=
  match s with
  | EmptyString => None
  | String ch s' =>
      if Ascii.eqb ch sep then Some (EmptyString, s')
      else match split_at sep s' with
           | Some (l, r) => Some (String ch l, r)
           | None => None
           end
  end.

(** The scheme of a URL: what stands before its first colon. *)
Definition scheme (u : QUrl) : option string :=
  option_map fst (split_at ":"%char (url_text u)).

(** A URL into the resources compiled into the binary has scheme [qrc]; a
    URL without scheme, or with scheme [file], is a path in the file
    system. *)
Definition names_bundled_resource (u : QUrl) : bool :=
  match scheme u with
  | Some sch => String.eqb sch "qrc"
  | None => false
  end.

(** A filter rule reads [<categories>=<true|false>]: [rule_enables rules
    pat] holds when [rules] is the one rule switching the categories
    [pat] on. *)
Definition rule_enables (rules pat : string) : bool :=
  match split_at "="%char rules with
  | Some (l, r) => String.eqb l pat && String.eqb r "true"
  | None => false
  end.

(** The call installs [rules] as the logging filter. *)
Definition installs_filter (rules : string) (c : call) : bool :=
  match c with
  | QLoggingCategory_setFilterRules r => String.eqb r rules
  | _ => false
  end.

(** ** Program order *)

(** The position of a step in the body of [main], counting the call
    expressions from the top of the function. *)
Definition rank (k : effect) : nat :=
  match k with
  | AttributeSetting => 0
  | LoggingFilterInstallation => 1
  | ApplicationConstruction => 2
  | WebEngineInitialization => 3
  | EngineConstruction => 4
  | UiLoadRequest => 5
  | RootObjectCheck => 6
  | EventLoop => 7
  end.

(** ** What is assumed of the framework *)

(** Every call other than the event loop hands control back: the
    framework neither blocks nor ends the process during startup. *)
Definition startup_returns (fw : framework) : Prop :=
  forall hist c, performs EventLoop c = false -> fw hist c <> None.

(** What the load leaves in the engine: whenever the engine is asked for
    its root objects it reports a collection, and that collection is
    empty exactly when [empty] is [true]. *)
Definition load_yields (fw : framework) (empty : bool) : Prop :=
  forall hist,
  exists roots,
    fw hist QQmlApplicationEngine_rootObjects = Some roots /\
    isEmpty roots = empty.

(** ** Sample frameworks *)

(** Every call returns; the load yields [roots]; the event loop ends with
    [status]. *)
Definition fw_total (roots : list QObject) (status : int) : framework :=
  fun _ c =>
    match c return option (result c) with
    | QCoreApplication_setAttribute _ => Some tt
    | QLoggingCategory_setFilterRules _ => Some tt
    | QGuiApplication_new _ _ => Some tt
    | QtWebEngine_initialize => Some tt
    | QQmlApplicationEngine_new => Some tt
    | QQmlApplicationEngine_load _ => Some tt
    | QQmlApplicationEngine_rootObjects => Some roots
    | QGuiApplication_exec => Some status
    end.

(** As [fw_total], but the framework stops answering once [n] calls have
    returned. *)
Definition fw_upto (n : nat) (roots : list QObject) (status : int) : framework :=
  fun hist c =>
    if Nat.ltb (List.length hist) n then fw_total roots status hist c else None.

(** A command line to run the samples with. *)
Definition sample_argv : argv_t := ["TimelineEditor"%string].

(** A command line with options. *)
Definition long_argv : argv_t :=
  ["TimelineEditor"; "-style"; "fusion"]%string.

(** * Properties *)

(** ** Lists of calls *)

Lemma initial_segment_refl {A : Type} (l : list A) : initial_segment l l.
Proof. exists []. now rewrite app_nil_r. Qed.

Lemma initial_segment_app {A : Type} (l rest : list A) :
  initial_segment l (l ++ rest).
Proof. now exists rest. Qed.

Lemma precedesb_sound P Q l :
  forall seen, precedesb P Q seen l = true ->
  forall l1 c l2, l = l1 ++ c :: l2 -> Q c = true ->
  seen || existsb P l1 = true.
Proof.
  induction l as [|d l IH]; intros seen Hb l1 c l2 Hl HQ.
  - destruct l1; discriminate.
  - simpl in Hb. apply andb_true_iff in Hb as [Hd Hrest].
    destruct l1 as [|d' l1]; simpl in Hl; injection Hl as -> ->.
    + rewrite HQ in Hd. simpl in *. now rewrite Hd.
    + specialize (IH _ Hrest l1 c l2 eq_refl HQ).
      simpl. now rewrite orb_assoc.
Qed.

Lemma precedesb_precedes P Q l :
  precedesb P Q false l = true -> precedes P Q l.
Proof.
  intros Hb l1 c l2 Hl HQ.
  exact (precedesb_sound P Q l false Hb l1 c l2 Hl HQ).
Qed.

Lemma precedes_initial_segment P Q l full :
  initial_segment l full -> precedes P Q full -> precedes P Q l.
Proof.
  intros [rest ->] Hfull l1 c l2 -> HQ.
  apply (Hfull l1 c (l2 ++ rest)); [|assumption].
  now rewrite <- app_assoc.
Qed.

Lemma occurrences_app P l1 l2 :
  occurrences P (l1 ++ l2) = (occurrences P l1 + occurrences P l2)%nat.
Proof. unfold occurrences. now rewrite filter_app, length_app. Qed.

Lemma occurrences_initial_segment P l full :
  initial_segment l full -> (occurrences P l <= occurrences P full)%nat.
Proof. intros [rest ->]. rewrite occurrences_app. lia. Qed.

Lemma In_initial_segment {A : Type} (l full : list A) x :
  initial_segment l full -> In x l -> In x full.
Proof. intros [rest ->] Hx. apply in_or_app. now left. Qed.

(** ** Runs of arbitrary programs *)

Section RunFacts.

Variable fw : framework.

(** A run only ever appends to the history it starts from. *)
Lemma run_extends {R : Type} (p : prog R) :
  forall hist t o, run fw p hist = (t, o) -> initial_segment hist t.
Proof.
  induction p as [r | c k IH]; intros hist t o Hrun; simpl in Hrun.
  - injection Hrun as <- _. apply initial_segment_refl.
  - destruct (fw hist c) as [x|].
    + destruct (IH x _ _ _ Hrun) as [rest ->].
      exists ([Ev c x] ++ rest). now rewrite app_assoc.
    + injection Hrun as <- _. apply initial_segment_refl.
Qed.

(** Sequencing: the second program starts where the first one returned,
    and does not start when the first one did not return. *)
Lemma run_bind {A B : Type} (p : prog A) (f : A -> prog B) :
  forall hist,
    run fw (bind p f) hist =
    match run fw p hist with
    | (t, Returned a) => run fw (f a) t
    | (t, NoReturn c) => (t, NoReturn c)
    end.
Proof.
  induction p as [a | c k IH]; intros hist; simpl.
  - reflexivity.
  - destruct (fw hist c) as [x|]; [apply IH | reflexivity].
Qed.

Lemma run_invoke (c : call) (hist : trace) :
  run fw (invoke c) hist =
  match fw hist c with
  | Some x => (hist ++ [Ev c x], Returned x)
  | None => (hist, NoReturn c)
  end.
Proof. reflexivity. Qed.

(** [return e;] where [e] is a call behaves as the call. *)
Lemma run_bind_Ret {A : Type} (p : prog A) (hist : trace) :
  run fw (bind p Ret) hist = run fw p hist.
Proof.
  rewrite run_bind. destruct (run fw p hist) as [t [a | c]]; reflexivity.
Qed.

(** Against a framework that answers every call, a program returns. *)
Lemma run_returns {R : Type} (p : prog R) :
  (forall hist c, fw hist c <> None) ->
  forall hist, exists t r, run fw p hist = (t, Returned r).
Proof.
  intros Hanswers.
  induction p as [r | c k IH]; intros hist; simpl.
  - now exists hist, r.
  - destruct (fw hist c) as [x|] eqn:Hc; [apply IH|].
    now destruct (Hanswers hist c).
Qed.

End RunFacts.

(** ** The shape of every execution of [main] *)

(** Split on what the framework answers to the next call of a run held in
    hypothesis [H]. *)
Ltac answer H :=
  match type of H with
  | match ?fw ?h ?c with _ => _ end = _ =>
      let x := fresh "x" in
      destruct (fw h c) as [x|] eqn:?;
      [ simpl in x;
        match type of x with
        | unit => destruct x
        | list _ => destruct x
        | _ => idtac
        end
      | ];
      simpl in H
  end.

(** All the ways a run of [main] can go, with trace and outcome made
    explicit. *)
Ltac main_cases H :=
  unfold main in H; simpl in H;
  repeat answer H;
  injection H; intros <- <-; clear H.

(** Whatever the framework does, the calls [main] issues are a non-empty
    initial segment of the source's sequence, and the way the run ends is
    fixed by how far that sequence got and what the root-object check
    answered. *)
Lemma main_shape (fw : framework) (argc : int) (argv : argv_t) t o :
  run fw (main argc argv) [] = (t, o) ->
  initial_segment (calls_of t o)
    (startup_calls argc argv ++ [QGuiApplication_exec]) /\
  calls_of t o <> [] /\
  match observed_roots t with
  | None =>
      initial_segment (calls_of t o) (startup_calls argc argv) /\
      loop_status t = None /\
      exists c, o = NoReturn c
  | Some roots =>
      exists pre,
        map ev_call pre = before_check (startup_calls argc argv) /\
        if isEmpty roots then
          t = pre ++ [Ev QQmlApplicationEngine_rootObjects roots] /\
          o = Returned (-1) /\
          loop_status t = None
        else
          (t = pre ++ [Ev QQmlApplicationEngine_rootObjects roots] /\
           o = NoReturn QGuiApplication_exec /\
           loop_status t = None /\
           fw t QGuiApplication_exec = None) \/
          (exists v,
              t = pre ++ [Ev QQmlApplicationEngine_rootObjects roots;
                          Ev QGuiApplication_exec v] /\
              o = Returned v /\
              loop_status t = Some v /\
              fw (pre ++ [Ev QQmlApplicationEngine_rootObjects roots])
                 QGuiApplication_exec = Some v)
  end.
Proof.
  intros H. main_cases H; cbn.
  all: split; [eexists; reflexivity|].
  all: split; [discriminate|].
  - eexists [_; _; _; _; _; _].
    split; [|split; [reflexivity | split; reflexivity]]. reflexivity.
  - eexists [_; _; _; _; _; _].
    split; [|right; eexists; split; [reflexivity|]]; [reflexivity|].
    cbn. repeat split; assumption.
  - eexists [_; _; _; _; _; _].
    split; [|left; split; [reflexivity|]]; [reflexivity|].
    repeat split; assumption.
  - split; [eexists; reflexivity | split; [reflexivity | eexists; reflexivity]].
  - split; [eexists; reflexivity | split; [reflexivity | eexists; reflexivity]].
  - split; [eexists; reflexivity | split; [reflexivity | eexists; reflexivity]].
  - split; [eexists; reflexivity | split; [reflexivity | eexists; reflexivity]].
  - split; [eexists; reflexivity | split; [reflexivity | eexists; reflexivity]].
  - split; [eexists; reflexivity | split; [reflexivity | eexists; reflexivity]].
  - split; [eexists; reflexivity | split; [reflexivity | eexists; reflexivity]].
Qed.

(** The calls issued by an execution never leave the source's sequence. *)
Lemma issued_segment fw argc argv :
  initial_segment (issued (execute fw argc argv))
    (startup_calls argc argv ++ [QGuiApplication_exec]).
Proof.
  unfold issued, execute.
  destruct (run fw (main argc argv) []) as [t o] eqn:H.
  exact (proj1 (main_shape _ _ _ _ _ H)).
Qed.

(** An ordering that holds along the source's sequence holds in every
    execution. *)
Lemma main_precedes fw argc argv P Q :
  precedesb P Q false (startup_calls argc argv ++ [QGuiApplication_exec]) = true ->
  precedes P Q (issued (execute fw argc argv)).
Proof.
  intros Hb. eapply precedes_initial_segment.
  - apply issued_segment.
  - now apply precedesb_precedes.
Qed.

(** An execution in which [main] returns went through the whole startup
    sequence, and through the event loop or not. *)
Lemma returned_calls fw argc argv r :
  snd (execute fw argc argv) = Returned r ->
  issued (execute fw argc argv) = startup_calls argc argv \/
  issued (execute fw argc argv) = startup_calls argc argv ++ [QGuiApplication_exec].
Proof.
  unfold issued, execute.
  destruct (run fw (main argc argv) []) as [t o] eqn:H. simpl. intros ->.
  destruct (main_shape _ _ _ _ _ H) as (_ & _ & Hshape).
  destruct (observed_roots t) as [roots|].
  - destruct Hshape as (pre & Hpre & Hrest).
    destruct (isEmpty roots).
    + destruct Hrest as (-> & _ & _). left.
      unfold calls_of. rewrite map_app, Hpre. reflexivity.
    + destruct Hrest as [(_ & Ho & _) | (v & -> & _ & _)]; [discriminate|].
      right. unfold calls_of. rewrite map_app, Hpre. reflexivity.
  - destruct Hshape as (_ & _ & c & Hc). discriminate.
Qed.

(** Against a framework that answers every call, [main] returns. *)
Lemma main_returns fw argc argv :
  (forall hist c, fw hist c <> None) ->
  exists r, snd (execute fw argc argv) = Returned r.
Proof.
  intros Hanswers.
  destruct (run_returns fw (main argc argv) Hanswers []) as (t & r & Hrun).
  exists r. unfold execute. now rewrite Hrun.
Qed.

(** When the startup calls return and the engine reports its root objects,
    [main] gets as far as the check, and what it observes there is what
    the framework holds. *)
Lemma check_answered fw argc argv empty :
  startup_returns fw ->
  load_yields fw empty ->
  exists roots,
    observed_roots (fst (execute fw argc argv)) = Some roots /\
    isEmpty roots = empty.
Proof.
  intros Hstart Hload. unfold execute.
  destruct (run fw (main argc argv) []) as [t o] eqn:H.
  main_cases H; cbn;
    try match goal with
        | Hn : fw ?h ?c = None |- _ =>
            exfalso; apply (Hstart h c); [reflexivity | exact Hn]
        end;
    match goal with
    | Hr : fw ?h QQmlApplicationEngine_rootObjects = Some ?x |- _ =>
        destruct (Hload h) as (roots & Hroots & Hempty);
        rewrite Hr in Hroots; injection Hroots as <-;
        eexists; split; [reflexivity | exact Hempty]
    end.
Qed.

(** Everything issued before a given call of an execution has returned. *)
Lemma issued_before_returned {R : Type} (t : trace) (o : outcome R) l1 c l2 :
  calls_of t o = l1 ++ c :: l2 -> initial_segment l1 (map ev_call t).
Proof.
  unfold calls_of. destruct o as [r | d].
  - rewrite app_nil_r. intros ->. apply initial_segment_app.
  - revert l1. induction (map ev_call t) as [|m ms IH]; intros l1 H.
    + destruct l1 as [|a [|b l1]]; try discriminate.
      apply initial_segment_refl.
    + destruct l1 as [|a l1]; [eexists; reflexivity|].
      simpl in H. injection H as <- H.
      destruct (IH _ H) as [rest ->]. now exists rest.
Qed.

(** Find where a call sits in an explicit list of calls: [H] states
    [l1 ++ c :: l2 = a1 :: ... :: an :: []]. *)
Ltac walk l1 H :=
  lazymatch type of H with
  | _ = [] => destruct l1; discriminate H
  | _ = _ :: _ =>
      destruct l1 as [|? l1]; simpl in H;
      [ injection H; clear H; intros; subst
      | injection H; clear H; intros H ?; subst; walk l1 H ]
  end.

(** ** The root-object check and the two ways out *)


(** After a non-empty answer to the check [main] calls [app.exec()] and
    returns what it returns. *)
Lemma after_nonempty_check fw argc argv roots :
  observed_roots (fst (execute fw argc argv)) = Some roots ->
  isEmpty roots = false ->
  exists pre,
    map ev_call pre = startup_calls argc argv /\
    issued (execute fw argc argv) =
      startup_calls argc argv ++ [QGuiApplication_exec] /\
    match fw pre QGuiApplication_exec with
    | Some v =>
        execute fw argc argv = (pre ++ [Ev QGuiApplication_exec v], Returned v)
    | None =>
        execute fw argc argv = (pre, NoReturn QGuiApplication_exec)
    end.
Proof.
  unfold issued, execute.
  destruct (run fw (main argc argv) []) as [t o] eqn:H. simpl.
  intros Hroots Hne.
  destruct (main_shape _ _ _ _ _ H) as (_ & _ & Hshape).
  rewrite Hroots, Hne in Hshape.
  destruct Hshape as (pre & Hpre & [(-> & -> & _ & Hfw) | (v & -> & -> & _ & Hfw)]).
  - exists (pre ++ [Ev QQmlApplicationEngine_rootObjects roots]).
    rewrite Hfw. unfold calls_of. rewrite map_app, Hpre.
    repeat split; reflexivity.
  - exists (pre ++ [Ev QQmlApplicationEngine_rootObjects roots]).
    rewrite Hfw. unfold calls_of. rewrite !map_app, Hpre, <- !app_assoc.
    repeat split; reflexivity.
Qed.



(** C2, as amended.  Take any framework in which the startup calls
    return and the load leaves at least one root object in the engine,
    and any command line.  Then [main] goes on to [app.exec()] as its
    last call, issued once the whole startup sequence has returned.  If
    the event loop returns [v], [main] returns exactly [v], whatever [v]
    is, [-1] included; if the loop never returns, neither does [main]. *)
Theorem loaded_ui_runs_event_loop fw argc argv :
  startup_returns fw ->
  load_yields fw false ->
  exists pre,
    map ev_call pre = startup_calls argc argv /\
    issued (execute fw argc argv) =
      startup_calls argc argv ++ [QGuiApplication_exec] /\
    match fw pre QGuiApplication_exec with
    | Some v =>
        execute fw argc argv = (pre ++ [Ev QGuiApplication_exec v], Returned v)
    | None =>
        execute fw argc argv = (pre, NoReturn QGuiApplication_exec)
    end.
Proof.
  intros Hstart Hload.
  destruct (check_answered fw argc argv false Hstart Hload)
    as (roots & Hroots & Hempty).
  exact (after_nonempty_check fw argc argv roots Hroots Hempty).
Qed.

Lemma loaded_ui_runs_event_loop_witness :
  exists pre,
    map ev_call pre = startup_calls 3 long_argv /\
    issued (execute (fw_total [5%N] 7) 3 long_argv) =
      startup_calls 3 long_argv ++ [QGuiApplication_exec] /\
    match fw_total [5%N] 7 pre QGuiApplication_exec with
    | Some v =>
        execute (fw_total [5%N] 7) 3 long_argv =
        (pre ++ [Ev QGuiApplication_exec v], Returned v)
    | None =>
        execute (fw_total [5%N] 7) 3 long_argv =
        (pre, NoReturn QGuiApplication_exec)
    end.
Proof.
  apply (loaded_ui_runs_event_loop (fw_total [5%N] 7) 3 long_argv).
  - intros hist c _. destruct c; discriminate.
  - intros hist. exists [5%N]. split; reflexivity.
Defined.

(** C2, as stated, promises that this branch never yields [-1].  The
    event loop can itself end with status [-1], and [main] hands that on:
    with one root object and a loop that returns [-1], [main] returns
    [-1] from the branch that ran the loop. *)
Lemma loop_status_minus_one_is_returned :
  ~ (forall fw argc argv roots,
        observed_roots (fst (execute fw argc argv)) = Some roots ->
        isEmpty roots = false ->
        snd (execute fw argc argv) <> Returned (-1)).
Proof.
  intros Hnever.
  apply (Hnever (fw_total [5%N] (-1)) 1 sample_argv [5%N]); reflexivity.
Qed.

(** C9. On the early-failure path nothing happens between the check and
    the return: the observation of the empty collection is the last event
    of the execution, no call is issued after the root-object check, and
    [main] returns [-1].  In particular the web engine is touched once
    (its initialization) and the logging filter once (its installation). *)
Theorem early_exit_no_further_effect fw argc argv :
  observed_roots (fst (execute fw argc argv)) = Some [] ->
  (exists pre,
      fst (execute fw argc argv) =
      pre ++ [Ev QQmlApplicationEngine_rootObjects []]) /\
  snd (execute fw argc argv) = Returned (-1) /\
  (forall l1 c l2,
      issued (execute fw argc argv) = l1 ++ c :: l2 ->
      performs RootObjectCheck c = true -> l2 = []) /\
  occurrences (performs WebEngineInitialization)
    (issued (execute fw argc argv)) = 1%nat /\
  occurrences (performs LoggingFilterInstallation)
    (issued (execute fw argc argv)) = 1%nat.
Proof.
  unfold issued, execute.
  destruct (run fw (main argc argv) []) as [t o] eqn:H. simpl. intros Hroots.
  destruct (main_shape _ _ _ _ _ H) as (_ & _ & Hshape).
  rewrite Hroots in Hshape. simpl in Hshape.
  destruct Hshape as (pre & Hpre & -> & -> & _).
  split; [now exists pre|]. split; [reflexivity|].
  unfold calls_of. rewrite map_app, Hpre. simpl.
  split; [|split; reflexivity].
  intros l1 c l2 Hl Hc. symmetry in Hl.
  walk l1 Hl; try discriminate Hc. reflexivity.
Qed.

Lemma early_exit_no_further_effect_witness :
  (exists pre,
      fst (execute (fw_total [] 0) 2 ("TimelineEditor"%string :: sample_argv)) =
      pre ++ [Ev QQmlApplicationEngine_rootObjects []]) /\
  snd (execute (fw_total [] 0) 2 ("TimelineEditor"%string :: sample_argv)) =
    Returned (-1) /\
  (forall l1 c l2,
      issued (execute (fw_total [] 0) 2 ("TimelineEditor"%string :: sample_argv)) =
      l1 ++ c :: l2 ->
      performs RootObjectCheck c = true -> l2 = []) /\
  occurrences (performs WebEngineInitialization)
    (issued (execute (fw_total [] 0) 2 ("TimelineEditor"%string :: sample_argv))) = 1%nat /\
  occurrences (performs LoggingFilterInstallation)
    (issued (execute (fw_total [] 0) 2 ("TimelineEditor"%string :: sample_argv))) = 1%nat.
Proof.
  apply (early_exit_no_further_effect (fw_total [] 0) 2
           ("TimelineEditor"%string :: sample_argv)).
  reflexivity.
Defined.

(** ** How often a step is taken *)

(** No step is taken more often than the source's sequence has it. *)
Lemma occurrences_bound fw argc argv P :
  (occurrences P (issued (execute fw argc argv)) <=
   occurrences P (startup_calls argc argv ++ [QGuiApplication_exec]))%nat.
Proof. apply occurrences_initial_segment, issued_segment. Qed.

(** When [main] returns, every startup step has been taken as often as
    the source's sequence has it. *)
Lemma returned_occurrences fw argc argv P r :
  P QGuiApplication_exec = false ->
  snd (execute fw argc argv) = Returned r ->
  occurrences P (issued (execute fw argc argv)) =
  occurrences P (startup_calls argc argv).
Proof.
  intros HP Hret.
  destruct (returned_calls _ _ _ _ Hret) as [-> | ->]; [reflexivity|].
  rewrite occurrences_app. unfold occurrences at 2. simpl. rewrite HP.
  simpl. lia.
Qed.

Lemma existsb_segment_false {A : Type} (P : A -> bool) l rest :
  existsb P (l ++ rest) = false -> existsb P l = false.
Proof. rewrite existsb_app. now intros [-> _]%orb_false_iff. Qed.

(** ** Order of the startup steps *)

(** C3. The high-DPI scaling attribute is set strictly before the
    application object is constructed: in every execution, complete or
    cut short, each construction of the application comes after a call
    setting the attribute.  Neither step is ever repeated, and both are
    taken in every execution in which [main] returns. *)
Theorem high_dpi_attribute_before_application fw argc argv :
  precedes sets_high_dpi (performs ApplicationConstruction)
    (issued (execute fw argc argv)) /\
  (occurrences sets_high_dpi (issued (execute fw argc argv)) <= 1)%nat /\
  (occurrences (performs ApplicationConstruction)
     (issued (execute fw argc argv)) <= 1)%nat /\
  (forall r, snd (execute fw argc argv) = Returned r ->
     occurrences sets_high_dpi (issued (execute fw argc argv)) = 1%nat /\
     occurrences (performs ApplicationConstruction)
       (issued (execute fw argc argv)) = 1%nat).
Proof.
  split; [apply main_precedes; reflexivity|].
  split; [apply (occurrences_bound fw argc argv sets_high_dpi)|].
  split; [apply (occurrences_bound fw argc argv (performs ApplicationConstruction))|].
  intros r Hret.
  rewrite !(returned_occurrences fw argc argv _ r) by (reflexivity || assumption).
  split; reflexivity.
Qed.

(** C4. The logging filter for the web-engine categories is installed
    strictly before the web-engine subsystem is initialized, in every
    execution; neither step is repeated, and both are taken whenever
    [main] returns. *)
Theorem logging_filter_before_webengine fw argc argv :
  precedes (installs_filter "qt.webengine*=true")
    (performs WebEngineInitialization) (issued (execute fw argc argv)) /\
  (occurrences (performs LoggingFilterInstallation)
     (issued (execute fw argc argv)) <= 1)%nat /\
  (occurrences (performs WebEngineInitialization)
     (issued (execute fw argc argv)) <= 1)%nat /\
  (forall r, snd (execute fw argc argv) = Returned r ->
     occurrences (installs_filter "qt.webengine*=true")
       (issued (execute fw argc argv)) = 1%nat /\
     occurrences (performs WebEngineInitialization)
       (issued (execute fw argc argv)) = 1%nat).
Proof.
  split; [apply main_precedes; reflexivity|].
  split; [apply (occurrences_bound fw argc argv (performs LoggingFilterInstallation))|].
  split; [apply (occurrences_bound fw argc argv (performs WebEngineInitialization))|].
  intros r Hret.
  rewrite !(returned_occurrences fw argc argv _ r) by (reflexivity || assumption).
  split; reflexivity.
Qed.

(** C5. The web-engine subsystem is initialized strictly after the
    application object has been constructed and strictly before the
    engine is asked to load the UI description.  The calls that stand
    before a call in an execution have all returned, so the constructor
    has completed when the initialization starts, and the initialization
    has completed when the load is requested. *)
Theorem webengine_between_application_and_load fw argc argv :
  precedes (performs ApplicationConstruction)
    (performs WebEngineInitialization) (issued (execute fw argc argv)) /\
  precedes (performs WebEngineInitialization)
    (performs UiLoadRequest) (issued (execute fw argc argv)) /\
  (forall l1 c l2,
      issued (execute fw argc argv) = l1 ++ c :: l2 ->
      initial_segment l1 (map ev_call (fst (execute fw argc argv)))) /\
  (occurrences (performs WebEngineInitialization)
     (issued (execute fw argc argv)) <= 1)%nat /\
  (forall r, snd (execute fw argc argv) = Returned r ->
     occurrences (performs ApplicationConstruction)
       (issued (execute fw argc argv)) = 1%nat /\
     occurrences (performs WebEngineInitialization)
       (issued (execute fw argc argv)) = 1%nat /\
     occurrences (performs UiLoadRequest)
       (issued (execute fw argc argv)) = 1%nat).
Proof.
  split; [apply main_precedes; reflexivity|].
  split; [apply main_precedes; reflexivity|].
  split; [intros l1 c l2; apply issued_before_returned|].
  split; [apply (occurrences_bound fw argc argv (performs WebEngineInitialization))|].
  intros r Hret.
  rewrite !(returned_occurrences fw argc argv _ r) by (reflexivity || assumption).
  repeat split; reflexivity.
Qed.

(** The ordering predicate tells the two directions apart: on a complete
    run the application is not constructed before the attribute is set. *)
Example application_not_before_high_dpi :
  ~ precedes (performs ApplicationConstruction) sets_high_dpi
      (issued (execute (fw_total [] 0) 1 sample_argv)).
Proof.
  intros Hp.
  specialize (Hp [] (QCoreApplication_setAttribute AA_EnableHighDpiScaling)
                 (tl (issued (execute (fw_total [] 0) 1 sample_argv)))
                 eq_refl eq_refl).
  discriminate Hp.
Qed.

(** ** What the calls carry *)

(** Membership in an explicit list of calls, case by case. *)
Ltac among H :=
  simpl in H;
  repeat match type of H with
         | _ \/ _ => destruct H as [H | H]
         end;
  try contradiction; subst.

(** C6. The only load request [main] ever makes names the compiled-in
    resource [qrc:/main.qml]: whatever the command line and whatever the
    framework answers, a load call of an execution is that one.  Its
    scheme is [qrc], so it points into the bundled resources and not into
    the file system.  The request is made at most once, and exactly once
    whenever [main] returns. *)
Theorem load_names_bundled_main_qml fw argc argv :
  (forall c, In c (issued (execute fw argc argv)) ->
     performs UiLoadRequest c = true ->
     c = QQmlApplicationEngine_load (mkQUrl "qrc:/main.qml")) /\
  scheme (mkQUrl "qrc:/main.qml") = Some "qrc"%string /\
  names_bundled_resource (mkQUrl "qrc:/main.qml") = true /\
  (occurrences (performs UiLoadRequest)
     (issued (execute fw argc argv)) <= 1)%nat /\
  (forall r, snd (execute fw argc argv) = Returned r ->
     In (QQmlApplicationEngine_load (mkQUrl "qrc:/main.qml"))
        (issued (execute fw argc argv))).
Proof.
  split.
  { intros c Hin Hc.
    apply (In_initial_segment _ _ _ (issued_segment fw argc argv)) in Hin.
    among Hin; try discriminate Hc; reflexivity. }
  split; [reflexivity|]. split; [reflexivity|].
  split; [apply (occurrences_bound fw argc argv (performs UiLoadRequest))|].
  intros r Hret.
  destruct (returned_calls _ _ _ _ Hret) as [-> | ->]; simpl; tauto.
Qed.

(** C7. The application object is constructed from the very [argc] and
    [argv] that [main] received: a constructor call of an execution
    carries exactly these two values.  Before the hand-off [main] has
    made only the attribute and logging calls, neither of which mentions
    the arguments.  The constructor is called whenever [main] returns. *)
Theorem arguments_passed_through fw argc argv :
  (forall l1 c l2,
      issued (execute fw argc argv) = l1 ++ c :: l2 ->
      performs ApplicationConstruction c = true ->
      c = QGuiApplication_new argc argv /\
      l1 = [ QCoreApplication_setAttribute AA_EnableHighDpiScaling;
             QLoggingCategory_setFilterRules "qt.webengine*=true" ]) /\
  (forall r, snd (execute fw argc argv) = Returned r ->
     In (QGuiApplication_new argc argv) (issued (execute fw argc argv))).
Proof.
  split.
  - intros l1 c l2 Hl Hc.
    destruct (issued_segment fw argc argv) as [rest Hfull].
    rewrite Hl, <- app_assoc in Hfull. simpl in Hfull. symmetry in Hfull.
    walk l1 Hfull; try discriminate Hc. split; reflexivity.
  - intros r Hret.
    destruct (returned_calls _ _ _ _ Hret) as [-> | ->]; simpl; tauto.
Qed.

(** C8. The filter rule [main] installs is the string
    [qt.webengine*=true], the rule that switches the categories
    [qt.webengine*] on.  It is installed at most once, exactly once
    whenever [main] returns, and once it is installed no later call of
    the execution touches the logging filter again. *)
Theorem webengine_logging_rule fw argc argv :
  (forall c, In c (issued (execute fw argc argv)) ->
     performs LoggingFilterInstallation c = true ->
     c = QLoggingCategory_setFilterRules "qt.webengine*=true") /\
  rule_enables "qt.webengine*=true" "qt.webengine*" = true /\
  (occurrences (performs LoggingFilterInstallation)
     (issued (execute fw argc argv)) <= 1)%nat /\
  (forall l1 c l2,
      issued (execute fw argc argv) = l1 ++ c :: l2 ->
      performs LoggingFilterInstallation c = true ->
      existsb (performs LoggingFilterInstallation) l2 = false) /\
  (forall r, snd (execute fw argc argv) = Returned r ->
     occurrences (installs_filter "qt.webengine*=true")
       (issued (execute fw argc argv)) = 1%nat).
Proof.
  split.
  { intros c Hin Hc.
    apply (In_initial_segment _ _ _ (issued_segment fw argc argv)) in Hin.
    among Hin; try discriminate Hc; reflexivity. }
  split; [reflexivity|].
  split; [apply (occurrences_bound fw argc argv (performs LoggingFilterInstallation))|].
  split.
  { intros l1 c l2 Hl Hc.
    destruct (issued_segment fw argc argv) as [rest Hfull].
    rewrite Hl, <- app_assoc in Hfull. simpl in Hfull. symmetry in Hfull.
    walk l1 Hfull; try discriminate Hc.
    apply (existsb_segment_false _ l2 rest).
    match goal with E : l2 ++ rest = _ |- _ => rewrite E end. reflexivity. }
  intros r Hret.
  rewrite (returned_occurrences fw argc argv _ r) by (reflexivity || assumption).
  reflexivity.
Qed.

(** ** Independence from the command line *)

(** An execution that got an answer to the root-object check has issued
    the whole startup sequence, followed by the event loop exactly when
    the answer was not empty. *)
Lemma reached_check fw argc argv roots :
  observed_roots (fst (execute fw argc argv)) = Some roots ->
  issued (execute fw argc argv) =
  startup_calls argc argv ++
  (if isEmpty roots then [] else [QGuiApplication_exec]).
Proof.
  unfold issued, execute.
  destruct (run fw (main argc argv) []) as [t o] eqn:H. simpl. intros Hroots.
  destruct (main_shape _ _ _ _ _ H) as (_ & _ & Hshape).
  rewrite Hroots in Hshape. destruct Hshape as (pre & Hpre & Hrest).
  unfold calls_of.
  destruct (isEmpty roots).
  - destruct Hrest as (-> & -> & _). rewrite map_app, Hpre. reflexivity.
  - destruct Hrest as [(-> & -> & _) | (v & -> & -> & _)];
      rewrite map_app, Hpre; reflexivity.
Qed.

(** Cut short or not, an execution takes the initialization steps in the
    source's order, whatever its arguments. *)
Lemma initialization_segment fw argc argv :
  initial_segment
    (map effect_of (before_check (issued (execute fw argc argv))))
    initialization_steps.
Proof.
  unfold issued, execute.
  destruct (run fw (main argc argv) []) as [t o] eqn:H.
  main_cases H; cbn; eexists; reflexivity.
Qed.



(** The two branches side by side: the same command line, an engine
    without root objects and an engine with one. *)
Example branches_differ_with_emptiness_only :
  branch_taken (issued (execute (fw_total [] 0) 3 long_argv)) = EarlyExit /\
  branch_taken (issued (execute (fw_total [5%N] 0) 3 long_argv)) = RunLoop.
Proof. split; reflexivity. Qed.

(** ** Sample executions *)

Example run_without_roots :
  execute (fw_total [] 0) 1 sample_argv =
  ([ Ev (QCoreApplication_setAttribute AA_EnableHighDpiScaling) tt;
     Ev (QLoggingCategory_setFilterRules "qt.webengine*=true") tt;
     Ev (QGuiApplication_new 1 sample_argv) tt;
     Ev QtWebEngine_initialize tt;
     Ev QQmlApplicationEngine_new tt;
     Ev (QQmlApplicationEngine_load (mkQUrl "qrc:/main.qml")) tt;
     Ev QQmlApplicationEngine_rootObjects [] ],
   Returned (-1)).
Proof. reflexivity. Qed.

Example run_with_roots :
  snd (execute (fw_total [5%N] 7) 1 sample_argv) = Returned 7 /\
  loop_status (fst (execute (fw_total [5%N] 7) 1 sample_argv)) = Some 7.
Proof. split; reflexivity. Qed.

(** The event loop may itself hand back [-1]; [main] passes it on. *)
Example run_with_loop_status_minus_one :
  snd (execute (fw_total [5%N] (-1)) 1 sample_argv) = Returned (-1) /\
  branch_taken (issued (execute (fw_total [5%N] (-1)) 1 sample_argv)) = RunLoop.
Proof. split; reflexivity. Qed.

(** The framework gives up during the web-engine initialization. *)
Example run_cut_short :
  execute (fw_upto 3 [5%N] 7) 1 sample_argv =
  ([ Ev (QCoreApplication_setAttribute AA_EnableHighDpiScaling) tt;
     Ev (QLoggingCategory_setFilterRules "qt.webengine*=true") tt;
     Ev (QGuiApplication_new 1 sample_argv) tt ],
   NoReturn QtWebEngine_initialize).
Proof. reflexivity. Qed.

(** * Further properties of [main] *)

(** ** What an exit status means *)

(** X1. Whenever [main] returns [r], one of two things happened: the
    check found no root object, the event loop was not run and [r] is
    [-1]; or the check found a root object, the event loop was run and
    returned, and [r] is the status the loop returned.  There is no third
    way for [main] to return. *)
Theorem exit_status_meaning fw argc argv r :
  snd (execute fw argc argv) = Returned r ->
  (observed_roots (fst (execute fw argc argv)) = Some [] /\
   loop_status (fst (execute fw argc argv)) = None /\
   r = -1) \/
  (exists roots,
      observed_roots (fst (execute fw argc argv)) = Some roots /\
      isEmpty roots = false /\
      loop_status (fst (execute fw argc argv)) = Some r).
Proof.
  unfold execute.
  destruct (run fw (main argc argv) []) as [t o] eqn:H. simpl. intros ->.
  destruct (main_shape _ _ _ _ _ H) as (_ & _ & Hshape).
  destruct (observed_roots t) as [roots|].
  - destruct Hshape as (pre & _ & Hrest).
    destruct roots as [|q roots]; simpl in Hrest.
    + destruct Hrest as (_ & Hr & Hloop). injection Hr as ->. now left.
    + destruct Hrest as [(_ & Ho & _) | (v & _ & Hr & Hloop & _)];
        [discriminate|].
      injection Hr as ->. right. now exists (q :: roots).
  - destruct Hshape as (_ & _ & c & Hc). discriminate.
Qed.

Lemma exit_status_meaning_witness :
  (observed_roots (fst (execute (fw_total [2%N; 3%N] 9) 1 sample_argv)) = Some [] /\
   loop_status (fst (execute (fw_total [2%N; 3%N] 9) 1 sample_argv)) = None /\
   9 = -1) \/
  (exists roots,
      observed_roots (fst (execute (fw_total [2%N; 3%N] 9) 1 sample_argv)) =
        Some roots /\
      isEmpty roots = false /\
      loop_status (fst (execute (fw_total [2%N; 3%N] 9) 1 sample_argv)) = Some 9).
Proof.
  apply (exit_status_meaning (fw_total [2%N; 3%N] 9) 1 sample_argv 9).
  reflexivity.
Defined.

(** X2. The event loop is entered only on a loaded UI: if [app.exec()] is
    among the calls of an execution, then the root-object check has been
    answered before, and its answer was not empty. *)
Theorem event_loop_only_after_loaded_ui fw argc argv :
  In QGuiApplication_exec (issued (execute fw argc argv)) ->
  (exists roots,
      observed_roots (fst (execute fw argc argv)) = Some roots /\
      isEmpty roots = false) /\
  precedes (performs RootObjectCheck) (performs EventLoop)
    (issued (execute fw argc argv)).
Proof.
  intros Hin. split; [|apply main_precedes; reflexivity].
  revert Hin. unfold issued, execute.
  destruct (run fw (main argc argv) []) as [t o] eqn:H. simpl. intros Hin.
  destruct (main_shape _ _ _ _ _ H) as (_ & _ & Hshape).
  destruct (observed_roots t) as [roots|].
  - exists roots. split; [reflexivity|].
    destruct Hshape as (pre & Hpre & Hrest).
    destruct (isEmpty roots); [|reflexivity].
    destruct Hrest as (-> & -> & _).
    unfold calls_of in Hin. rewrite map_app, Hpre in Hin.
    among Hin; discriminate.
  - destruct Hshape as (Hseg & _).
    apply (In_initial_segment _ _ _ Hseg) in Hin.
    among Hin; discriminate.
Qed.

Lemma event_loop_only_after_loaded_ui_witness :
  (exists roots,
      observed_roots (fst (execute (fw_total [4%N] 0) 1 sample_argv)) =
        Some roots /\
      isEmpty roots = false) /\
  precedes (performs RootObjectCheck) (performs EventLoop)
    (issued (execute (fw_total [4%N] 0) 1 sample_argv)).
Proof.
  apply (event_loop_only_after_loaded_ui (fw_total [4%N] 0) 1 sample_argv).
  simpl. tauto.
Defined.

(** ** No step is retried *)

(** X3. [main] has no loop and no retry: in every execution each of the
    eight steps is taken at most once, so at most eight framework calls
    are made, and at least one call is always made. *)
Theorem each_step_at_most_once fw argc argv :
  (forall k,
      (occurrences (performs k) (issued (execute fw argc argv)) <= 1)%nat) /\
  (1 <= List.length (issued (execute fw argc argv)) <= 8)%nat.
Proof.
  split.
  - intros k.
    eapply Nat.le_trans; [apply occurrences_bound|].
    destruct k; apply Nat.le_refl.
  - split.
    + unfold issued, execute.
      destruct (run fw (main argc argv) []) as [t o] eqn:H. simpl.
      destruct (main_shape _ _ _ _ _ H) as (_ & Hne & _).
      destruct (calls_of t o); [contradiction | simpl; lia].
    + destruct (issued_segment fw argc argv) as [rest Hfull].
      apply (f_equal (@List.length call)) in Hfull.
      change (List.length (startup_calls argc argv ++ [QGuiApplication_exec]))
        with 8%nat in Hfull.
      rewrite length_app in Hfull. lia.
Qed.

(** ** The whole order *)

(** X4. Program order is kept between any two steps: whenever a step is
    taken in an execution, every step that stands earlier in the body of
    [main] has been taken before it.  This holds for executions cut short
    by the framework as well. *)
Theorem program_order_respected fw argc argv a b :
  (rank a < rank b)%nat ->
  precedes (performs a) (performs b) (issued (execute fw argc argv)).
Proof.
  intros Hrank. apply main_precedes.
  destruct a, b; simpl in Hrank; try lia; reflexivity.
Qed.

Lemma program_order_respected_witness :
  precedes (performs EngineConstruction) (performs UiLoadRequest)
    (issued (execute (fw_upto 6 [] 0) 1 sample_argv)).
Proof.
  apply (program_order_respected (fw_upto 6 [] 0) 1 sample_argv
           EngineConstruction UiLoadRequest).
  simpl. lia.
Defined.

(** ** What the calls depend on *)

(** X5. The calls of an execution that reaches the root-object check are
    fixed by the command line and by whether root objects exist: two such
    executions on the same [argc] and [argv] that agree on the emptiness
    of the root-object collection issue the same calls with the same
    arguments, whatever else the framework answered and whichever root
    objects there are. *)
Theorem calls_fixed_by_arguments_and_emptiness
    fw1 fw2 argc argv roots1 roots2 :
  observed_roots (fst (execute fw1 argc argv)) = Some roots1 ->
  observed_roots (fst (execute fw2 argc argv)) = Some roots2 ->
  isEmpty roots1 = isEmpty roots2 ->
  issued (execute fw1 argc argv) = issued (execute fw2 argc argv).
Proof.
  intros H1 H2 Hsame.
  rewrite (reached_check _ _ _ _ H1), (reached_check _ _ _ _ H2), Hsame.
  reflexivity.
Qed.

Lemma calls_fixed_by_arguments_and_emptiness_witness :
  issued (execute (fw_total [1%N] 0) 1 sample_argv) =
  issued (execute (fw_upto 7 [8%N; 9%N] 5) 1 sample_argv).
Proof.
  apply (calls_fixed_by_arguments_and_emptiness
           (fw_total [1%N] 0) (fw_upto 7 [8%N; 9%N] 5) 1 sample_argv
           [1%N] [8%N; 9%N]);
    reflexivity.
Defined.
